(** * CSS selector builder of [src/05-objects-tasks.js]

    A shallow embedding of the [SimpleSelector] class and of the
    [cssSelectorBuilder] facade, followed by the properties of the builder.

    JavaScript objects are mutable and shared by reference: an expression is a
    location in a store of [SimpleSelector] records, a method call updates the
    record of its receiver in place, and an exception leaves behind every
    assignment made before the [throw]. The values and the combinators are
    strings, the type the concatenations of the source give them; the ranks
    pushed on [stack] are the literals [0] to [5]. *)

From stdpp Require Import base relations list strings.

Local Open Scope string_scope.
Local Open Scope list_scope.
Local Open Scope nat_scope.

(** ** Completions *)

(** [throw new Error(message)] *)
Inductive exn : Type := Error (message : string).

(** How a call ends: [return a] or an exception. *)
Inductive completion (A : Type) : Type :=
| Return (a : A)
| Throw (e : exn).
Arguments Return {A} a.
Arguments Throw {A} e.

(** The two messages of the source; the specification calls them
    [DuplicateSelectorPartError] and [SelectorOrderError]. *)
Definition DuplicateSelectorPartError : exn :=
  Error "Element, id and pseudo-element should not occur more then one time inside the selector".

Definition SelectorOrderError : exn :=
  Error "Selector parts should be arranged in the following order: element, id, class, attribute, pseudo-class, pseudo-element".

(** ** The class [SimpleSelector] *)

Module SimpleSelector.

(** The fields assigned by the constructor. [stack] is a JavaScript array:
    index order, [push] and [pop] work at the end. *)
Record t : Type := mk {
  str : string;
  stack : list nat;
  isElement : bool;
  isId : bool;
  isPseudoElement : bool
}.

Definition constructor : t := mk EmptyString [] false false false.

(** Field assignments [this.f = v]. *)
Definition set_str (v : string) (this : t) : t :=
  mk v (stack this) (isElement this) (isId this) (isPseudoElement this).
Definition set_stack (v : list nat) (this : t) : t :=
  mk (str this) v (isElement this) (isId this) (isPseudoElement this).
Definition set_isElement (v : bool) (this : t) : t :=
  mk (str this) (stack this) v (isId this) (isPseudoElement this).
Definition set_isId (v : bool) (this : t) : t :=
  mk (str this) (stack this) (isElement this) v (isPseudoElement this).
Definition set_isPseudoElement (v : bool) (this : t) : t :=
  mk (str this) (stack this) (isElement this) (isId this) v.

(** [this.stack.pop()]: removes and returns the last entry, [undefined]
    ([None]) on an empty array, which it leaves empty. *)
Definition stack_pop (this : t) : option nat * t :=
  (last (stack this), set_stack (removelast (stack this)) this).

(** [this.stack.push(n)] *)
Definition stack_push (n : nat) (this : t) : t :=
  set_stack (stack this ++ [n]) this.

(** Truthiness of [lastOrder]: [undefined] and [0] are falsy. *)
Definition truthy (v : option nat) : bool :=
  match v with
  | Some n => negb (Nat.eqb n 0)
  | None => false
  end.

(** [lastOrder > k]; [undefined > k] is [false]. *)
Definition gt (v : option nat) (k : nat) : bool :=
  match v with
  | Some n => Nat.ltb k n
  | None => false
  end.

(** A method body runs on the record of [this]; it gives the record as the
    body leaves it and the completion. [Return tt] of the six fragment
    methods and of [combine] is [return this]. *)
Definition body (A : Type) : Type := t -> t * completion A.

Definition stringify : body string :=
  fun this => (this, Return (str this)).

Definition element (value : string) : body unit :=
  fun this =>
    if isElement this then (this, Throw DuplicateSelectorPartError)
    else
      let this := set_isElement true this in
      let this := set_str (str this +:+ value) this in
      let (lastOrder, this) := stack_pop this in
      if truthy lastOrder && gt lastOrder 0
      then (this, Throw SelectorOrderError)
      else (stack_push 0 this, Return tt).

Definition id (value : string) : body unit :=
  fun this =>
    if isId this then (this, Throw DuplicateSelectorPartError)
    else
      let this := set_isId true this in
      let this := set_str (str this +:+ "#" +:+ value) this in
      let (lastOrder, this) := stack_pop this in
      if truthy lastOrder && gt lastOrder 1
      then (this, Throw SelectorOrderError)
      else (stack_push 1 this, Return tt).

Definition class (value : string) : body unit :=
  fun this =>
    let this := set_str (str this +:+ "." +:+ value) this in
    let (lastOrder, this) := stack_pop this in
    if truthy lastOrder && gt lastOrder 2
    then (this, Throw SelectorOrderError)
    else (stack_push 2 this, Return tt).

Definition attr (value : string) : body unit :=
  fun this =>
    let this := set_str (str this +:+ "[" +:+ value +:+ "]") this in
    let (lastOrder, this) := stack_pop this in
    if truthy lastOrder && gt lastOrder 3
    then (this, Throw SelectorOrderError)
    else (stack_push 3 this, Return tt).

Definition pseudoClass (value : string) : body unit :=
  fun this =>
    let this := set_str (str this +:+ ":" +:+ value) this in
    let (lastOrder, this) := stack_pop this in
    if truthy lastOrder && gt lastOrder 4
    then (this, Throw SelectorOrderError)
    else (stack_push 4 this, Return tt).

Definition pseudoElement (value : string) : body unit :=
  fun this =>
    if isPseudoElement this then (this, Throw DuplicateSelectorPartError)
    else
      let this := set_isPseudoElement true this in
      let this := set_str (str this +:+ "::" +:+ value) this in
      let (lastOrder, this) := stack_pop this in
      if truthy lastOrder && gt lastOrder 5
      then (this, Throw SelectorOrderError)
      else (stack_push 5 this, Return tt).

(** [combine(combinator, selector)], given what [selector.stringify()]
    returned: the other expression lives elsewhere in the store. *)
Definition combine (combinator : string) (selector_stringify : string) : body unit :=
  fun this =>
    (set_str (str this +:+ " " +:+ combinator +:+ " " +:+ selector_stringify) this,
     Return tt).

End SimpleSelector.

(** ** The store *)

(** A reference to an object. *)
Definition loc : Type := nat.

(** Every [SimpleSelector] created so far, by reference, and the [result]
    property of the [cssSelectorBuilder] object ([null] is [None]). *)
Record world : Type := World {
  heap : list SimpleSelector.t;
  result : option loc
}.

Definition set_heap (h : list SimpleSelector.t) (w : world) : world :=
  World h (result w).

(** The program before anything ran: no expression, [result: null]. *)
Definition initial : world := World [] None.

(** Code that reads and writes the store and may throw: what it has written
    stays written when it throws. [None] is a reference to no object, which
    a JavaScript program cannot hold. *)
Definition M (A : Type) : Type := world -> option (world * completion A).

Definition ret {A : Type} (a : A) : M A :=
  fun w => Some (w, Return a).

Definition throw {A : Type} (e : exn) : M A :=
  fun w => Some (w, Throw e).

Definition bind {A B : Type} (m : M A) (k : A -> M B) : M B :=
  fun w =>
    match m w with
    | Some (w', Return a) => k a w'
    | Some (w', Throw e) => Some (w', Throw e)
    | None => None
    end.

#[global] Instance M_ret : MRet M := @ret.
#[global] Instance M_bind : MBind M := fun A B k m => bind m k.

(** [new SimpleSelector()]: a new object, whose reference no earlier one
    equals. *)
Definition new_SimpleSelector : M loc :=
  fun w =>
    Some (set_heap (heap w ++ [SimpleSelector.constructor]) w,
          Return (length (heap w))).

(** Running a method body on the object [this] refers to. *)
Definition send {A : Type} (this : loc) (b : SimpleSelector.body A) : M A :=
  fun w =>
    match heap w !! this with
    | Some o =>
        let (o', c) := b o in
        Some (set_heap (<[this := o']> (heap w)) w, c)
    | None => None
    end.

(** ** Method calls on references *)

(** [this.stringify()] *)
Definition stringify (this : loc) : M string :=
  send this SimpleSelector.stringify.

(** The six fragment methods. *)
Inductive fragment : Type :=
| Element | Id | Class | Attr | PseudoClass | PseudoElement.

Definition fragment_body (f : fragment) : string -> SimpleSelector.body unit :=
  match f with
  | Element => SimpleSelector.element
  | Id => SimpleSelector.id
  | Class => SimpleSelector.class
  | Attr => SimpleSelector.attr
  | PseudoClass => SimpleSelector.pseudoClass
  | PseudoElement => SimpleSelector.pseudoElement
  end.

(** [this.f(value)] for a fragment method [f]; each ends in [return this]. *)
Definition invoke (f : fragment) (value : string) (this : loc) : M loc :=
  send this (fragment_body f value);;
  ret this.

(** [this.combine(combinator, selector)] *)
Definition combine (combinator : string) (selector : loc) (this : loc) : M loc :=
  s ← stringify selector;
  send this (SimpleSelector.combine combinator s);;
  ret this.

(** ** The facade [cssSelectorBuilder] *)

Module cssSelectorBuilder.

(** [this.result = r] *)
Definition set_result (r : loc) : M unit :=
  fun w => Some (World (heap w) (Some r), Return tt).

(** The six entries: [this.result = new SimpleSelector();
    return this.result.f(value);], where [this.result] is the reference
    just assigned. *)
Definition entry (f : fragment) (value : string) : M loc :=
  r ← new_SimpleSelector;
  set_result r;;
  invoke f value r.

Definition element : string -> M loc := entry Element.
Definition id : string -> M loc := entry Id.
Definition class : string -> M loc := entry Class.
Definition attr : string -> M loc := entry Attr.
Definition pseudoClass : string -> M loc := entry PseudoClass.
Definition pseudoElement : string -> M loc := entry PseudoElement.

Definition combine (selector1 : loc) (combinator : string) (selector2 : loc) : M loc :=
  r ← combine combinator selector2 selector1;
  set_result r;;
  ret r.

End cssSelectorBuilder.

(** ** The vocabulary of the specification *)

(** Grammar rank of a fragment kind. *)
Definition rank (f : fragment) : nat :=
  match f with
  | Element => 0
  | Id => 1
  | Class => 2
  | Attr => 3
  | PseudoClass => 4
  | PseudoElement => 5
  end.

(** Per-kind formatting of a fragment. *)
Definition format (f : fragment) (value : string) : string :=
  match f with
  | Element => value
  | Id => "#" +:+ value
  | Class => "." +:+ value
  | Attr => "[" +:+ value +:+ "]"
  | PseudoClass => ":" +:+ value
  | PseudoElement => "::" +:+ value
  end.

(** The singleton flag a fragment method tests first; [class], [attr] and
    [pseudoClass] test none. *)
Definition flag (f : fragment) (o : SimpleSelector.t) : bool :=
  match f with
  | Element => SimpleSelector.isElement o
  | Id => SimpleSelector.isId o
  | PseudoElement => SimpleSelector.isPseudoElement o
  | Class | Attr | PseudoClass => false
  end.

Definition singleton (f : fragment) : bool :=
  match f with
  | Element | Id | PseudoElement => true
  | Class | Attr | PseudoClass => false
  end.

Definition fragment_eqb (f g : fragment) : bool := Nat.eqb (rank f) (rank g).

(** A chain [this.f1(v1).f2(v2)...]: the first exception ends it. *)
Fixpoint chain (calls : list (fragment * string)) (this : loc) : M loc :=
  match calls with
  | [] => ret this
  | (f, v) :: rest => r ← invoke f v this; chain rest r
  end.

(** The text of a chain of fragments, in call order. *)
Fixpoint render (calls : list (fragment * string)) : string :=
  match calls with
  | [] => EmptyString
  | (f, v) :: rest => format f v +:+ render rest
  end.

(** Ranks never go down from one call to the next. *)
Fixpoint nondecreasing (rs : list nat) : bool :=
  match rs with
  | a :: (b :: _) as rest => Nat.leb a b && nondecreasing rest
  | _ => true
  end.

(** How many calls of kind [f] a sequence holds. *)
Fixpoint occurrences (f : fragment) (calls : list (fragment * string)) : nat :=
  match calls with
  | [] => 0
  | c :: rest => (if fragment_eqb (fst c) f then 1 else 0) + occurrences f rest
  end.

(** A sequence the grammar allows: ranks in order, and [element], [id] and
    [pseudoElement] at most once each. *)
Definition valid (calls : list (fragment * string)) : bool :=
  nondecreasing (map (fun c => rank (fst c)) calls)
  && Nat.leb (occurrences Element calls) 1
  && Nat.leb (occurrences Id calls) 1
  && Nat.leb (occurrences PseudoElement calls) 1.

(** ** Programs over the public surface *)

(** One statement of a client: an entry of the facade, a chained fragment
    call, a combination (through the facade or as a method) or a
    [stringify()]. *)
Inductive op : Type :=
| OpEntry (f : fragment) (value : string)
| OpInvoke (this : loc) (f : fragment) (value : string)
| OpCombine (selector1 : loc) (combinator : string) (selector2 : loc)
| OpMethodCombine (this : loc) (combinator : string) (selector : loc)
| OpStringify (this : loc).

Definition run (o : op) : M unit :=
  match o with
  | OpEntry f v => cssSelectorBuilder.entry f v ;; ret tt
  | OpInvoke this f v => invoke f v this ;; ret tt
  | OpCombine a c b => cssSelectorBuilder.combine a c b ;; ret tt
  | OpMethodCombine this c b => combine c b this ;; ret tt
  | OpStringify this => stringify this ;; ret tt
  end.

(** The store after a statement, the client catching what it throws. *)
Definition exec (o : op) (w : world) : world :=
  match run o w with
  | Some (w', _) => w'
  | None => w
  end.

Definition exec_all (os : list op) (w : world) : world :=
  foldl (fun w o => exec o w) w os.

(** The object a reference stands for. *)
Definition deref (w : world) (l : loc) : option SimpleSelector.t :=
  heap w !! l.

(** ** The common shape of the six fragment methods *)

(** The assignment a singleton method makes to its flag. *)
Definition raise_flag (f : fragment) (o : SimpleSelector.t) : SimpleSelector.t :=
  match f with
  | Element => SimpleSelector.set_isElement true o
  | Id => SimpleSelector.set_isId true o
  | PseudoElement => SimpleSelector.set_isPseudoElement true o
  | Class | Attr | PseudoClass => o
  end.

(** The object once a fragment method has passed its singleton test, added
    its text and popped the stack. *)
Definition appended (f : fragment) (v : string) (o : SimpleSelector.t) : SimpleSelector.t :=
  SimpleSelector.set_stack (removelast (SimpleSelector.stack o))
    (SimpleSelector.set_str (SimpleSelector.str o +:+ format f v) (raise_flag f o)).

(** The rank the ordering test of a fragment method sees, if any. *)
Definition marker (o : SimpleSelector.t) : option nat := last (SimpleSelector.stack o).

Definition order_violated (f : fragment) (o : SimpleSelector.t) : bool :=
  match marker o with
  | Some r => Nat.ltb (rank f) r
  | None => false
  end.

(** [w] with the object of [l] replaced. *)
Definition store (l : loc) (o : SimpleSelector.t) (w : world) : world :=
  set_heap (<[l := o]> (heap w)) w.

(** What one method call can make of an object. *)
Inductive object_step (o : SimpleSelector.t) : SimpleSelector.t -> Prop :=
| step_fragment (f : fragment) (v : string) :
    object_step o (fragment_body f v o).1
| step_combine (c s : string) :
    object_step o (SimpleSelector.combine c s o).1.

(** Chained fragment calls on several expressions, in program order. *)
Definition exec_calls (cs : list (loc * fragment * string)) (w : world) : world :=
  exec_all (map (fun c => OpInvoke c.1.1 c.1.2 c.2) cs) w.

(** The value a [stringify()] returns, if it returns. *)
Definition returned {A : Type} (r : option (world * completion A)) : option A :=
  match r with
  | Some (_, Return a) => Some a
  | _ => None
  end.

(** [return this] after a body that returned. *)
Definition this_or_throw (this : loc) (c : completion unit) : completion loc :=
  match c with
  | Return _ => Return this
  | Throw e => Throw e
  end.

(** The stack never holds more than the rank of the last accepted call. *)
Definition small_stack (x : SimpleSelector.t) : Prop :=
  length (SimpleSelector.stack x) ≤ 1.

(** ** Further vocabulary *)

(** The completion of a call, the store left aside. *)
Definition completion_of {A : Type} (r : option (world * completion A)) :
    option (completion A) :=
  match r with
  | Some (_, c) => Some c
  | None => None
  end.

(** [t] starts with [s]. *)
Definition extends (s t : string) : Prop := ∃ u, t = s +:+ u.

(** The stack is empty or holds one rank of the grammar. *)
Definition one_rank (x : SimpleSelector.t) : Prop :=
  SimpleSelector.stack x = [] ∨ ∃ r, SimpleSelector.stack x = [r] ∧ r ≤ 5.

(** A call of kind [f] is among [calls]. *)
Definition occurs (f : fragment) (calls : list (fragment * string)) : bool :=
  Nat.ltb 0 (occurrences f calls).

(** The expression a sequence of accepted calls builds from a new one: the
    fragments in order, the rank of the last call, a flag for each singleton
    part that was called. *)
Definition built (calls : list (fragment * string)) : SimpleSelector.t :=
  SimpleSelector.mk (render calls)
    (match last calls with
     | Some c => [rank c.1]
     | None => []
     end)
    (occurs Element calls) (occurs Id calls) (occurs PseudoElement calls).

(** The grammar allows a call of kind [f] after the calls [pre]. *)
Definition allowed_next (pre : list (fragment * string)) (f : fragment) : Prop :=
  (∀ d, last pre = Some d → rank d.1 ≤ rank f)
  ∧ (singleton f = true → occurrences f pre = 0).

(** ** The constructor [Rectangle] *)

Module Rectangle.
Section Numbers.

(** JavaScript numbers and their product [*]. *)
Variable number : Type.
Variable mul : number -> number -> number.

(** The three properties the constructor assigns; [getArea] holds an arrow
    function. *)
Record t : Type := mk {
  width : number;
  height : number;
  getArea : unit -> number
}.

(** [new Rectangle(width, height)]: the arrow function closes over the two
    parameters. *)
Definition constructor (width height : number) : t :=
  mk width height (fun _ => mul width height).


End Numbers.
End Rectangle.

(** * Properties *)

(** ** Strings *)

Lemma append_assoc (a b c : string) : (a +:+ b) +:+ c = a +:+ (b +:+ c).
Proof.
  induction a as [|x a IH]; [done |].
  change (String x ((a +:+ b) +:+ c) = String x (a +:+ (b +:+ c))).
  by f_equal.
Qed.

Lemma append_nil_r (a : string) : a +:+ EmptyString = a.
Proof.
  induction a as [|x a IH]; [done |].
  change (String x (a +:+ EmptyString) = String x a).
  by f_equal.
Qed.

Lemma errors_differ : DuplicateSelectorPartError ≠ SelectorOrderError.
Proof. discriminate. Qed.

(** ** The common shape of the six fragment methods *)

Lemma fragment_body_eq (f : fragment) (v : string) (o : SimpleSelector.t) :
  fragment_body f v o =
    if flag f o then (o, Throw DuplicateSelectorPartError)
    else if order_violated f o then (appended f v o, Throw SelectorOrderError)
    else (SimpleSelector.stack_push (rank f) (appended f v o), Return tt).
Proof.
  unfold order_violated, marker.
  destruct o as [s st e i p], f; simpl;
    unfold SimpleSelector.element, SimpleSelector.id, SimpleSelector.class,
      SimpleSelector.attr, SimpleSelector.pseudoClass, SimpleSelector.pseudoElement;
    simpl;
    repeat match goal with |- context [if ?b then _ else _] =>
      is_var b; destruct b; simpl; try reflexivity end;
    destruct (last st) as [[|n]|]; simpl; try reflexivity;
    destruct (Nat.ltb _ _); reflexivity.
Qed.

(** ** Calls on the store *)

Lemma deref_store_eq (w : world) (l : loc) (o o' : SimpleSelector.t) :
  deref w l = Some o → deref (store l o' w) l = Some o'.
Proof.
  unfold deref, store; simpl. intros H.
  apply list_lookup_insert_eq. by eapply lookup_lt_Some.
Qed.

Lemma deref_store_ne (w : world) (l l' : loc) (o' : SimpleSelector.t) :
  l ≠ l' → deref (store l o' w) l' = deref w l'.
Proof. unfold deref, store; simpl. intros H. by apply list_lookup_insert_ne. Qed.

Lemma store_same (w : world) (l : loc) (o : SimpleSelector.t) :
  deref w l = Some o → store l o w = w.
Proof.
  unfold deref, store, set_heap. intros H.
  rewrite list_insert_id; [by destruct w | done].
Qed.

Lemma send_eq {A : Type} (this : loc) (b : SimpleSelector.body A)
    (w : world) (o : SimpleSelector.t) :
  deref w this = Some o → send this b w = Some (store this (b o).1 w, (b o).2).
Proof. unfold deref, send. intros ->. by destruct (b o). Qed.

Lemma send_dangling {A : Type} (this : loc) (b : SimpleSelector.body A) (w : world) :
  deref w this = None → send this b w = None.
Proof. unfold deref, send. by intros ->. Qed.

Lemma stringify_eq (this : loc) (w : world) (o : SimpleSelector.t) :
  deref w this = Some o → stringify this w = Some (w, Return (SimpleSelector.str o)).
Proof.
  intros H. unfold stringify. rewrite (send_eq _ _ _ _ H); simpl.
  by rewrite (store_same _ _ _ H).
Qed.

Lemma invoke_eq (f : fragment) (v : string) (this : loc) (w : world)
    (o : SimpleSelector.t) :
  deref w this = Some o →
  invoke f v this w =
    Some (store this (fragment_body f v o).1 w,
          this_or_throw this (fragment_body f v o).2).
Proof.
  intros H. unfold invoke, mbind, M_bind, bind.
  rewrite (send_eq _ _ _ _ H).
  by destruct (fragment_body f v o) as [o' [[]|e]].
Qed.

Lemma invoke_dangling (f : fragment) (v : string) (this : loc) (w : world) :
  deref w this = None → invoke f v this w = None.
Proof.
  intros H. unfold invoke, mbind, M_bind, bind. by rewrite (send_dangling _ _ _ H).
Qed.

Lemma combine_eq (c : string) (selector this : loc) (w : world)
    (o1 o2 : SimpleSelector.t) :
  deref w this = Some o1 → deref w selector = Some o2 →
  combine c selector this w =
    Some (store this
            (SimpleSelector.set_str
               (SimpleSelector.str o1 +:+ " " +:+ c +:+ " " +:+ SimpleSelector.str o2) o1) w,
          Return this).
Proof.
  intros H1 H2. unfold combine, mbind, M_bind, bind.
  rewrite (stringify_eq _ _ _ H2), (send_eq _ _ _ _ H1). done.
Qed.

Lemma facade_combine_eq (c : string) (selector1 selector2 : loc) (w : world)
    (o1 o2 : SimpleSelector.t) :
  deref w selector1 = Some o1 → deref w selector2 = Some o2 →
  cssSelectorBuilder.combine selector1 c selector2 w =
    Some (World
            (<[selector1 :=
                 SimpleSelector.set_str
                   (SimpleSelector.str o1 +:+ " " +:+ c +:+ " " +:+ SimpleSelector.str o2) o1]>
               (heap w))
            (Some selector1),
          Return selector1).
Proof.
  intros H1 H2. unfold cssSelectorBuilder.combine, mbind, M_bind, bind.
  rewrite (combine_eq _ _ _ _ _ _ H1 H2). done.
Qed.

(** ** [stringify] *)

(** C9. [stringify()] has no side effect and is idempotent: the call returns
    the accumulated text and leaves the whole store as it was, so the text,
    the stack and the three flags of the expression are unchanged, and a
    second call right after it returns the same string. *)
Theorem stringify_side_effect_free (w : world) (this : loc) (o : SimpleSelector.t) :
  deref w this = Some o →
  stringify this w = Some (w, Return (SimpleSelector.str o))
  ∧ (∀ w' s, stringify this w = Some (w', Return s) →
       deref w' this = Some o ∧ stringify this w' = Some (w', Return s))
  ∧ (s1 ← stringify this; s2 ← stringify this; ret (s1, s2)) w
    = Some (w, Return (SimpleSelector.str o, SimpleSelector.str o)).
Proof.
  intros H. pose proof (stringify_eq _ _ _ H) as E.
  split; [done |]. split.
  - intros w' s. rewrite E. intros [= <- <-]. done.
  - unfold mbind, M_bind, bind. rewrite E, E. done.
Qed.

Lemma stringify_side_effect_free_witness :
  let w := World [SimpleSelector.mk "div#main" [1] true true false] (Some 0) in
  stringify 0 w = Some (w, Return "div#main")
  ∧ (s1 ← stringify 0; s2 ← stringify 0; ret (s1, s2)) w
    = Some (w, Return ("div#main", "div#main")).
Proof.
  intros w.
  destruct (stringify_side_effect_free w 0 (SimpleSelector.mk "div#main" [1] true true false))
    as (H1 & _ & H3); [reflexivity |].
  split; [exact H1 | exact H3].
Defined.

Lemma returned_stringify (w : world) (this : loc) (s : string) :
  returned (stringify this w) = Some s ↔
  ∃ o, deref w this = Some o ∧ SimpleSelector.str o = s.
Proof.
  split.
  - destruct (deref w this) as [o|] eqn:H.
    + rewrite (stringify_eq _ _ _ H); simpl. intros [= <-]. by exists o.
    + unfold stringify. by rewrite (send_dangling _ _ _ H).
  - intros (o & H & <-). by rewrite (stringify_eq _ _ _ H).
Qed.

(** C8. Neither [stringify] nor [combine] throws: on an expression in any
    state [stringify()] returns a string, and combining any two expressions
    with any combinator, as a method or through the facade, returns the
    receiver. *)
Theorem stringify_combine_never_throw (w : world) (this selector : loc)
    (c : string) (o1 o2 : SimpleSelector.t) :
  deref w this = Some o1 → deref w selector = Some o2 →
  (∃ s, stringify this w = Some (w, Return s))
  ∧ (∃ w', combine c selector this w = Some (w', Return this))
  ∧ (∃ w', cssSelectorBuilder.combine this c selector w = Some (w', Return this)).
Proof.
  intros H1 H2. repeat split.
  - eexists. by apply stringify_eq.
  - eexists. by eapply combine_eq.
  - eexists. by eapply facade_combine_eq.
Qed.

Lemma stringify_combine_never_throw_witness :
  let w := World [SimpleSelector.constructor;
                  SimpleSelector.mk "a + b::after" [] true false true] None in
  (∃ s, stringify 0 w = Some (w, Return s))
  ∧ (∃ w', combine "~" 1 0 w = Some (w', Return 0))
  ∧ (∃ w', cssSelectorBuilder.combine 0 "~" 1 w = Some (w', Return 0)).
Proof.
  intros w.
  apply (stringify_combine_never_throw w 0 1 "~" SimpleSelector.constructor
           (SimpleSelector.mk "a + b::after" [] true false true));
    reflexivity.
Defined.

(** ** [combine] *)

(** C4. Combining two expressions gives an expression whose text is the text
    of the left one, a space, the combinator, a space and the text of the
    right one; with the single-space combinator three spaces separate the two
    texts. Both operands may themselves be combinations. *)
Theorem combine_stringify (w : world) (a b : loc) (c sa sb : string) :
  returned (stringify a w) = Some sa →
  returned (stringify b w) = Some sb →
  (∃ w' e, cssSelectorBuilder.combine a c b w = Some (w', Return e)
     ∧ returned (stringify e w') = Some (sa +:+ " " +:+ c +:+ " " +:+ sb)
     ∧ (c = " " → returned (stringify e w') = Some (sa +:+ "   " +:+ sb)))
  ∧ (∃ w' e, combine c b a w = Some (w', Return e)
     ∧ returned (stringify e w') = Some (sa +:+ " " +:+ c +:+ " " +:+ sb)).
Proof.
  intros (o1 & H1 & <-)%returned_stringify (o2 & H2 & <-)%returned_stringify.
  split.
  - eexists _, a. split; [by eapply facade_combine_eq |].
    assert (returned (stringify a
              (World (<[a := SimpleSelector.set_str
                        (SimpleSelector.str o1 +:+ " " +:+ c +:+ " " +:+ SimpleSelector.str o2) o1]>
                        (heap w)) (Some a)))
            = Some (SimpleSelector.str o1 +:+ " " +:+ c +:+ " " +:+ SimpleSelector.str o2)) as E.
    { apply returned_stringify. eexists.
      split; [unfold deref; simpl; apply list_lookup_insert_eq;
              by eapply lookup_lt_Some | reflexivity]. }
    split; [exact E |]. intros ->. exact E.
  - eexists _, a. split; [by eapply combine_eq |].
    apply returned_stringify. eexists. split; [by eapply deref_store_eq |]. done.
Qed.

Lemma combine_stringify_witness :
  let w := exec_all [OpEntry Element "div"; OpInvoke 0 Id "main";
                     OpEntry Element "table"; OpInvoke 1 Id "data"] initial in
  returned (stringify 0 w) = Some "div#main"
  ∧ returned (stringify 1 w) = Some "table#data"
  ∧ ∃ w' e, cssSelectorBuilder.combine 0 "+" 1 w = Some (w', Return e)
     ∧ returned (stringify e w') = Some "div#main + table#data".
Proof.
  intros w. split; [reflexivity |]. split; [reflexivity |].
  destruct (combine_stringify w 0 1 "+" "div#main" "table#data")
    as [(w' & e & H1 & H2 & _) _]; [reflexivity | reflexivity |].
  exists w', e. split; [exact H1 | exact H2].
Defined.

(** The nested combination of the source's documentation. *)
Example combine_nested :
  returned
    ((a ← cssSelectorBuilder.element "div"
            ≫= chain [(Id, "main"); (Class, "container"); (Class, "draggable")];
      b ← cssSelectorBuilder.element "table" ≫= invoke Id "data";
      c ← cssSelectorBuilder.element "tr" ≫= invoke PseudoClass "nth-of-type(even)";
      d ← cssSelectorBuilder.element "td" ≫= invoke PseudoClass "nth-of-type(even)";
      cd ← cssSelectorBuilder.combine c " " d;
      bcd ← cssSelectorBuilder.combine b "~" cd;
      e ← cssSelectorBuilder.combine a "+" bcd;
      stringify e) initial)
  = Some "div#main.container.draggable + table#data ~ tr:nth-of-type(even)   td:nth-of-type(even)".
Proof. reflexivity. Qed.

(** C5, as stated, fails: [combine] writes the combined text into its left
    operand, whose [stringify()] is not what it was. *)
Lemma combine_mutates_left_operand :
  ¬ (∀ (w w' : world) (a b e : loc) (c : string),
       cssSelectorBuilder.combine a c b w = Some (w', Return e) →
       returned (stringify a w') = returned (stringify a w)
       ∧ returned (stringify b w') = returned (stringify b w)).
Proof.
  intros H.
  pose (w := exec_all [OpEntry Element "a"; OpEntry Element "b"] initial).
  destruct (cssSelectorBuilder.combine 0 "+" 1 w) as [[w' r]|] eqn:E;
    [| discriminate E].
  injection E as <- <-.
  destruct (H w _ 0 1 0 "+" eq_refl) as [Ha _].
  discriminate Ha.
Qed.

(** C5, amended. [combine] changes the text of its left operand, which is the
    expression it returns, and nothing else: the stack and the flags of the
    left operand, and every other expression of the store, the right operand
    included when it is another object, are as before. *)
Theorem combine_frame (w : world) (a b : loc) (c : string)
    (o1 o2 : SimpleSelector.t) :
  deref w a = Some o1 → deref w b = Some o2 →
  ∃ w', cssSelectorBuilder.combine a c b w = Some (w', Return a)
    ∧ combine c b a w = Some (set_heap (heap w') w, Return a)
    ∧ deref w' a =
        Some (SimpleSelector.set_str
                (SimpleSelector.str o1 +:+ " " +:+ c +:+ " " +:+ SimpleSelector.str o2) o1)
    ∧ (∀ l, l ≠ a → deref w' l = deref w l)
    ∧ (a ≠ b → returned (stringify b w') = returned (stringify b w)).
Proof.
  intros H1 H2. eexists. split; [by eapply facade_combine_eq |].
  split; [by erewrite combine_eq |]. split.
  - unfold deref; simpl. apply list_lookup_insert_eq. by eapply lookup_lt_Some.
  - assert (∀ l, l ≠ a →
       deref (World (<[a := SimpleSelector.set_str
                (SimpleSelector.str o1 +:+ " " +:+ c +:+ " " +:+ SimpleSelector.str o2) o1]>
                (heap w)) (Some a)) l = deref w l) as F.
    { intros l Hl. unfold deref; simpl. by apply list_lookup_insert_ne. }
    split; [exact F |]. intros Hab.
    rewrite (stringify_eq _ _ _ H2).
    erewrite stringify_eq; [done |]. rewrite F; [done | congruence].
Qed.

Lemma combine_frame_witness :
  let w := exec_all [OpEntry Element "a"; OpEntry Element "b"] initial in
  ∃ w', cssSelectorBuilder.combine 0 "+" 1 w = Some (w', Return 0)
    ∧ returned (stringify 0 w') = Some "a + b"
    ∧ returned (stringify 1 w') = Some "b".
Proof.
  intros w.
  destruct (combine_frame w 0 1 "+"
              (SimpleSelector.mk "a" [0] true false false)
              (SimpleSelector.mk "b" [0] true false false))
    as (w' & H1 & _ & H3 & _ & H5); [reflexivity | reflexivity |].
  exists w'. split; [exact H1 |]. split.
  - apply returned_stringify. eexists. split; [exact H3 | reflexivity].
  - rewrite H5; [reflexivity | discriminate].
Defined.

(** ** Statements of a client and the store *)

Lemma fresh_returns (f : fragment) (v : string) :
  (fragment_body f v SimpleSelector.constructor).2 = Return tt.
Proof. by destruct f. Qed.

Lemma entry_eq (f : fragment) (v : string) (w : world) :
  cssSelectorBuilder.entry f v w =
    Some (World (heap w ++ [(fragment_body f v SimpleSelector.constructor).1])
                (Some (length (heap w))),
          Return (length (heap w))).
Proof.
  unfold cssSelectorBuilder.entry, mbind, M_bind, bind, new_SimpleSelector,
    cssSelectorBuilder.set_result; simpl.
  erewrite invoke_eq; [| unfold deref; simpl; apply list_lookup_middle; done].
  rewrite fresh_returns. unfold store, set_heap; simpl.
  rewrite insert_app_r_alt, Nat.sub_diag; [done | lia].
Qed.

Lemma combine_dangling (c : string) (selector this : loc) (w : world) :
  deref w this = None ∨ deref w selector = None →
  combine c selector this w = None.
Proof.
  intros H. unfold combine, mbind, M_bind, bind.
  destruct (deref w selector) as [o2|] eqn:H2.
  - destruct H as [H|H]; [| done].
    rewrite (stringify_eq _ _ _ H2). by rewrite (send_dangling _ _ _ H).
  - unfold stringify. by rewrite (send_dangling _ _ _ H2).
Qed.

(** A statement leaves the objects as they are, or replaces one object by a
    step of it, or adds one object, a step away from a new one. *)
Lemma exec_heap (o : op) (w : world) :
  heap (exec o w) = heap w
  ∨ (∃ l x x', deref w l = Some x ∧ object_step x x'
       ∧ heap (exec o w) = <[l := x']> (heap w))
  ∨ (∃ x', object_step SimpleSelector.constructor x'
       ∧ heap (exec o w) = heap w ++ [x']).
Proof.
  destruct o as [f v | this f v | a c b | this c b | this];
    unfold exec, run, mbind, M_bind, bind.
  - rewrite entry_eq; simpl. right; right. eexists. split; [constructor | done].
  - destruct (deref w this) as [x|] eqn:H.
    + rewrite (invoke_eq _ _ _ _ _ H). right; left.
      exists this, x, (fragment_body f v x).1.
      split; [done |]. split; [constructor |].
      by destruct (fragment_body f v x).2.
    + rewrite (invoke_dangling _ _ _ _ H). by left.
  - destruct (deref w a) as [x|] eqn:Ha, (deref w b) as [y|] eqn:Hb.
    + rewrite (facade_combine_eq _ _ _ _ _ _ Ha Hb); simpl. right; left.
      exists a, x, (SimpleSelector.combine c (SimpleSelector.str y) x).1.
      split; [done |]. split; [constructor | done].
    + unfold cssSelectorBuilder.combine, mbind, M_bind, bind.
      rewrite combine_dangling; [by left | by right].
    + unfold cssSelectorBuilder.combine, mbind, M_bind, bind.
      rewrite combine_dangling; [by left | by left].
    + unfold cssSelectorBuilder.combine, mbind, M_bind, bind.
      rewrite combine_dangling; [by left | by left].
  - destruct (deref w this) as [x|] eqn:Ha, (deref w b) as [y|] eqn:Hb.
    + rewrite (combine_eq _ _ _ _ _ _ Ha Hb); simpl. right; left.
      exists this, x, (SimpleSelector.combine c (SimpleSelector.str y) x).1.
      split; [done |]. split; [constructor | done].
    + rewrite combine_dangling; [by left | by right].
    + rewrite combine_dangling; [by left | by left].
    + rewrite combine_dangling; [by left | by left].
  - destruct (deref w this) as [x|] eqn:H.
    + rewrite (stringify_eq _ _ _ H). by left.
    + unfold stringify. rewrite (send_dangling _ _ _ H). by left.
Qed.

Lemma exec_deref (o : op) (w : world) (l : loc) (x : SimpleSelector.t) :
  deref w l = Some x →
  ∃ x', deref (exec o w) l = Some x' ∧ rtc object_step x x'.
Proof.
  intros H. unfold deref in *.
  destruct (exec_heap o w) as [E | [(l0 & y & y' & Hy & S & E) | (y' & _ & E)]];
    rewrite E.
  - by exists x.
  - destruct (decide (l0 = l)) as [->|Hne].
    + exists y'. split.
      * apply list_lookup_insert_eq. by eapply lookup_lt_Some.
      * unfold deref in Hy. rewrite H in Hy. injection Hy as ->. by apply rtc_once.
    + exists x. by rewrite list_lookup_insert_ne.
  - exists x. split; [| done]. by apply lookup_app_l_Some.
Qed.

Lemma exec_all_deref (os : list op) (w : world) (l : loc) (x : SimpleSelector.t) :
  deref w l = Some x →
  ∃ x', deref (exec_all os w) l = Some x' ∧ rtc object_step x x'.
Proof.
  revert w x. induction os as [|o os IH]; intros w x H; simpl.
  - by exists x.
  - destruct (exec_deref o w l x H) as (x1 & H1 & S1).
    destruct (IH _ _ H1) as (x2 & H2 & S2).
    exists x2. split; [done |]. by etrans.
Qed.

Lemma exec_Forall (P : SimpleSelector.t → Prop) (o : op) (w : world) :
  P SimpleSelector.constructor →
  (∀ x x', object_step x x' → P x → P x') →
  Forall P (heap w) → Forall P (heap (exec o w)).
Proof.
  intros P0 PS F.
  destruct (exec_heap o w) as [E | [(l0 & y & y' & Hy & S & E) | (y' & S & E)]];
    rewrite E.
  - done.
  - apply Forall_insert; [done |]. apply (PS y); [done |].
    by eapply (Forall_lookup_1 P (heap w)).
  - apply Forall_app. split; [done |]. apply Forall_singleton. by eapply PS.
Qed.

Lemma exec_all_Forall (P : SimpleSelector.t → Prop) (os : list op) (w : world) :
  P SimpleSelector.constructor →
  (∀ x x', object_step x x' → P x → P x') →
  Forall P (heap w) → Forall P (heap (exec_all os w)).
Proof.
  intros P0 PS. revert w. induction os as [|o os IH]; intros w F; simpl.
  - done.
  - apply IH. by apply exec_Forall.
Qed.

(** ** What a step does to the flags and to the stack *)

Lemma flag_raise_flag (f g : fragment) (x : SimpleSelector.t) :
  flag g x = true → flag g (raise_flag f x) = true.
Proof. by destruct f, g, x. Qed.

Lemma flag_raised (f : fragment) (x : SimpleSelector.t) :
  singleton f = true → flag f (raise_flag f x) = true.
Proof. by destruct f, x. Qed.

Lemma flag_appended (f g : fragment) (v : string) (x : SimpleSelector.t) :
  flag g (appended f v x) = flag g (raise_flag f x).
Proof. by destruct g. Qed.

Lemma flag_stack_push (g : fragment) (n : nat) (x : SimpleSelector.t) :
  flag g (SimpleSelector.stack_push n x) = flag g x.
Proof. by destruct g. Qed.

Lemma object_step_flag (g : fragment) (x x' : SimpleSelector.t) :
  object_step x x' → flag g x = true → flag g x' = true.
Proof.
  intros [f v | c s] H.
  - rewrite fragment_body_eq.
    destruct (flag f x); [done |].
    destruct (order_violated f x); simpl;
      rewrite ?flag_stack_push, flag_appended; by apply flag_raise_flag.
  - by destruct g.
Qed.

Lemma rtc_object_step_flag (g : fragment) (x x' : SimpleSelector.t) :
  rtc object_step x x' → flag g x = true → flag g x' = true.
Proof. induction 1; eauto using object_step_flag. Qed.

Lemma length_removelast {A : Type} (l : list A) :
  length (removelast l) = length l - 1.
Proof.
  induction l as [|a [|b l] IH]; [done | done |].
  change (S (length (removelast (b :: l))) = S (length (b :: l)) - 1).
  rewrite IH. simpl. lia.
Qed.

Lemma object_step_small_stack (x x' : SimpleSelector.t) :
  object_step x x' → small_stack x → small_stack x'.
Proof.
  unfold small_stack. intros [f v | c s] H.
  - rewrite fragment_body_eq.
    destruct (flag f x); [done |].
    destruct (order_violated f x); simpl;
      rewrite ?length_app, length_removelast; simpl; lia.
  - done.
Qed.

Lemma reachable_small_stack (os : list op) (l : loc) (x : SimpleSelector.t) :
  deref (exec_all os initial) l = Some x → small_stack x.
Proof.
  intros H.
  eapply (Forall_lookup_1 small_stack (heap (exec_all os initial))); [| exact H].
  apply exec_all_Forall.
  - unfold small_stack; simpl; lia.
  - apply object_step_small_stack.
  - constructor.
Qed.

(** ** The two errors *)

Lemma invoke_returns (f : fragment) (v : string) (this l : loc) (w w1 : world) :
  invoke f v this w = Some (w1, Return l) →
  ∃ x, deref w this = Some x
    ∧ flag f x = false ∧ order_violated f x = false
    ∧ w1 = store this (SimpleSelector.stack_push (rank f) (appended f v x)) w.
Proof.
  destruct (deref w this) as [x|] eqn:H.
  - rewrite (invoke_eq _ _ _ _ _ H), fragment_body_eq.
    destruct (flag f x) eqn:Hf; simpl; [done |].
    destruct (order_violated f x) eqn:Ho; simpl; [done |].
    intros [= <-]. by exists x.
  - by rewrite (invoke_dangling _ _ _ _ H).
Qed.

Lemma marker_stack_push (n : nat) (x : SimpleSelector.t) :
  marker (SimpleSelector.stack_push n x) = Some n.
Proof. unfold marker; simpl. apply last_snoc. Qed.

(** C1, as stated, fails: a second [id] after a [pseudoClass] has a lower
    rank than the one recorded, and throws the duplicate error. *)
Lemma lower_rank_not_always_order_error :
  ¬ (∀ (w w1 : world) (this : loc) (f1 f2 : fragment) (v1 v2 : string),
       invoke f1 v1 this w = Some (w1, Return this) →
       rank f2 < rank f1 →
       ∃ w2, invoke f2 v2 this w1 = Some (w2, Throw SelectorOrderError)).
Proof.
  intros H.
  pose (w := exec_all [OpEntry Id "x"] initial).
  destruct (invoke PseudoClass "hover" 0 w) as [[w1 r]|] eqn:E;
    [| discriminate E].
  injection E as <- <-.
  destruct (H w _ 0 PseudoClass Id "hover" "y" eq_refl) as [w2 H2];
    [simpl; lia |].
  discriminate H2.
Qed.

(** C1, amended. After a fragment call that returned, and so recorded its
    rank, a call of a strictly lower rank made next throws the ordering error,
    unless it is [element], [id] or [pseudoElement] called on an expression
    that had that part already. On the new expression of a facade entry no
    part of a lower rank is set: every two-call chain [f1(v1).f2(v2)] with
    the rank of [f2] below the rank of [f1] throws the ordering error. *)
Theorem lower_rank_throws_order_error (f1 f2 : fragment) (v1 v2 : string) :
  rank f2 < rank f1 →
  (∀ (w w1 : world) (this : loc),
     invoke f1 v1 this w = Some (w1, Return this) →
     flag f2 <$> deref w1 this = Some false →
     ∃ w2, invoke f2 v2 this w1 = Some (w2, Throw SelectorOrderError))
  ∧ (∀ w : world,
     ∃ w2, (r ← cssSelectorBuilder.entry f1 v1; invoke f2 v2 r) w
           = Some (w2, Throw SelectorOrderError)).
Proof.
  intros Hr.
  assert (∀ (w w1 : world) (this : loc),
     invoke f1 v1 this w = Some (w1, Return this) →
     flag f2 <$> deref w1 this = Some false →
     ∃ w2, invoke f2 v2 this w1 = Some (w2, Throw SelectorOrderError)) as H.
  { intros w w1 this (x & Hx & _ & _ & ->)%invoke_returns Hf.
    rewrite (deref_store_eq _ _ _ _ Hx) in Hf. injection Hf as Hf.
    erewrite invoke_eq; [| by eapply deref_store_eq].
    rewrite fragment_body_eq, Hf.
    unfold order_violated. rewrite marker_stack_push.
    apply Nat.ltb_lt in Hr. rewrite Hr. simpl. by eexists. }
  split; [exact H |].
  intros w. unfold mbind, M_bind, bind. rewrite entry_eq.
  set (l := length (heap w)).
  set (x1 := (fragment_body f1 v1 SimpleSelector.constructor).1).
  apply (H (World (heap w ++ [SimpleSelector.constructor]) (Some l))
           (World (heap w ++ [x1]) (Some l)) l).
  - erewrite invoke_eq; [| unfold deref; simpl; by apply list_lookup_middle].
    rewrite fresh_returns. unfold store, set_heap; simpl.
    rewrite insert_app_r_alt, Nat.sub_diag; [done | lia].
  - unfold deref; simpl. rewrite list_lookup_middle by done. simpl. f_equal.
    unfold x1. destruct f1, f2; simpl in Hr; try lia; reflexivity.
Qed.

Lemma lower_rank_throws_order_error_witness :
  let w := World [SimpleSelector.constructor] (Some 0) in
  let w1 := World [SimpleSelector.mk "#x" [1] false true false] (Some 0) in
  invoke Id "x" 0 w = Some (w1, Return 0)
  ∧ (∃ w2, invoke Element "y" 0 w1 = Some (w2, Throw SelectorOrderError))
  ∧ (∃ w2, (r ← cssSelectorBuilder.id "x"; invoke Element "y" r) initial
           = Some (w2, Throw SelectorOrderError)).
Proof.
  intros w w1.
  destruct (lower_rank_throws_order_error Id Element "x" "y") as [H1 H2];
    [simpl; lia |].
  split; [reflexivity |]. split.
  - apply (H1 w w1 0); reflexivity.
  - exact (H2 initial).
Defined.

(** C6, as stated, fails: [element] called again after a [class] violates
    both constraints, and it is the duplicate error that is thrown. *)
Lemma both_violated_not_order_error :
  ¬ (∀ (w : world) (this : loc) (f : fragment) (v : string) (x : SimpleSelector.t),
       deref w this = Some x →
       flag f x = true → order_violated f x = true →
       ∃ w', invoke f v this w = Some (w', Throw SelectorOrderError)).
Proof.
  intros H.
  pose (w := exec_all [OpEntry Element "a"; OpInvoke 0 Class "b"] initial).
  destruct (H w 0 Element "c" (SimpleSelector.mk "a.b" [2] true false false))
    as [w' H']; [reflexivity | reflexivity | reflexivity |].
  discriminate H'.
Qed.

Lemma invoke_flagged (w : world) (this : loc) (f : fragment) (v : string)
    (x : SimpleSelector.t) :
  deref w this = Some x →
  flag f x = true →
  invoke f v this w = Some (w, Throw DuplicateSelectorPartError).
Proof.
  intros H Hf. rewrite (invoke_eq _ _ _ _ _ H), fragment_body_eq, Hf; simpl.
  by rewrite (store_same _ _ _ H).
Qed.

(** C6, amended. [element], [id] and [pseudoElement] test their flag first:
    called on an expression that had the part already, each throws the
    duplicate error whatever rank is recorded, so also when the order is
    violated as well, and nothing of the store has changed. *)
Theorem duplicate_check_comes_first (w : world) (this : loc) (f : fragment)
    (v : string) (x : SimpleSelector.t) :
  deref w this = Some x →
  flag f x = true →
  invoke f v this w = Some (w, Throw DuplicateSelectorPartError).
Proof.
  apply invoke_flagged.
Qed.

Lemma duplicate_check_comes_first_witness :
  let w := exec_all [OpEntry Element "a"; OpInvoke 0 Class "b"] initial in
  order_violated Element (SimpleSelector.mk "a.b" [2] true false false) = true
  ∧ invoke Element "c" 0 w = Some (w, Throw DuplicateSelectorPartError).
Proof.
  intros w. split; [reflexivity |].
  apply (duplicate_check_comes_first w 0 Element "c"
           (SimpleSelector.mk "a.b" [2] true false false));
    reflexivity.
Defined.

Lemma flag_after_call (f : fragment) (v : string) (x : SimpleSelector.t) :
  singleton f = true → flag f (fragment_body f v x).1 = true.
Proof.
  intros Hs. rewrite fragment_body_eq.
  destruct (flag f x) eqn:Hf; [done |].
  destruct (order_violated f x); simpl;
    rewrite ?flag_stack_push, flag_appended; by apply flag_raised.
Qed.

(** C3. [element] called a second time on an expression throws the duplicate
    error, however the first call ended and whatever the program did in
    between; so do [id] and [pseudoElement]. The store is left unchanged. *)
Theorem second_call_throws_duplicate (w : world) (this : loc) (f : fragment)
    (v1 v2 : string) (between : list op) :
  singleton f = true →
  is_Some (deref w this) →
  let w2 := exec_all between (exec (OpInvoke this f v1) w) in
  invoke f v2 this w2 = Some (w2, Throw DuplicateSelectorPartError).
Proof.
  intros Hs [x Hx] w2.
  assert (∃ x1, deref (exec (OpInvoke this f v1) w) this = Some x1
                ∧ flag f x1 = true) as (x1 & H1 & F1).
  { unfold exec, run, mbind, M_bind, bind.
    rewrite (invoke_eq _ _ _ _ _ Hx).
    exists (fragment_body f v1 x).1. split.
    - destruct (fragment_body f v1 x).2; by eapply deref_store_eq.
    - by apply flag_after_call. }
  destruct (exec_all_deref between _ _ _ H1) as (x2 & H2 & S2).
  apply (invoke_flagged w2 this f v2 x2 H2).
  by eapply rtc_object_step_flag.
Qed.

Lemma second_call_throws_duplicate_witness :
  let w := exec_all [OpEntry Class "a"] initial in
  let w1 := exec (OpInvoke 0 Element "div") w in
  let w2 := exec_all [OpInvoke 0 PseudoClass "hover"] w1 in
  returned (invoke Element "div" 0 w) = None
  ∧ invoke Element "p" 0 w2 = Some (w2, Throw DuplicateSelectorPartError).
Proof.
  intros w w1 w2. split; [reflexivity |].
  apply (second_call_throws_duplicate w 0 Element "div" "p"
           [OpInvoke 0 PseudoClass "hover"]).
  - reflexivity.
  - eexists. reflexivity.
Defined.

Lemma marker_None_order (f : fragment) (x : SimpleSelector.t) :
  SimpleSelector.stack x = [] → order_violated f x = false.
Proof. unfold order_violated, marker. by intros ->. Qed.

(** C10. A fragment call that throws the ordering error has already changed
    the expression: the text of the rejected fragment is appended and the
    recorded rank is popped and not pushed back, so [stringify()] shows the
    rejected fragment and no later fragment call, of any rank, throws the
    ordering error. A call that throws the duplicate error has changed
    nothing. *)
Theorem order_error_keeps_partial_update (os : list op) (this : loc)
    (f : fragment) (v : string) (w' : world) :
  let w := exec_all os initial in
  (invoke f v this w = Some (w', Throw SelectorOrderError) →
   ∃ x, deref w this = Some x
     ∧ deref w' this = Some (appended f v x)
     ∧ SimpleSelector.str (appended f v x) = SimpleSelector.str x +:+ format f v
     ∧ SimpleSelector.stack (appended f v x) = []
     ∧ stringify this w' = Some (w', Return (SimpleSelector.str x +:+ format f v))
     ∧ ∀ f' v', ∃ w'' c, invoke f' v' this w' = Some (w'', c)
                         ∧ c ≠ Throw SelectorOrderError)
  ∧ (invoke f v this w = Some (w', Throw DuplicateSelectorPartError) → w' = w).
Proof.
  intros w. split.
  - destruct (deref w this) as [x|] eqn:Hx;
      [| by rewrite (invoke_dangling _ _ _ _ Hx)].
    rewrite (invoke_eq _ _ _ _ _ Hx), fragment_body_eq.
    destruct (flag f x); simpl; [done |].
    destruct (order_violated f x); simpl; [| done].
    intros [= <-]. exists x.
    assert (deref (store this (appended f v x) w) this = Some (appended f v x))
      as Hd by (by eapply deref_store_eq).
    assert (SimpleSelector.stack (appended f v x) = []) as Hs.
    { simpl. apply length_zero_iff_nil. rewrite length_removelast.
      pose proof (reachable_small_stack os this x Hx) as Hl.
      unfold small_stack in Hl. lia. }
    repeat split; try done.
    + by rewrite (stringify_eq _ _ _ Hd).
    + intros f' v'. rewrite (invoke_eq _ _ _ _ _ Hd), fragment_body_eq.
      rewrite (marker_None_order f' _ Hs).
      destruct (flag f' (appended f v x)); simpl; eexists _, _; by split.
  - destruct (deref w this) as [x|] eqn:Hx;
      [| by rewrite (invoke_dangling _ _ _ _ Hx)].
    rewrite (invoke_eq _ _ _ _ _ Hx), fragment_body_eq.
    destruct (flag f x); simpl.
    + intros [= <-]. by apply store_same.
    + destruct (order_violated f x); simpl; done.
Qed.

Lemma order_error_keeps_partial_update_witness :
  let w := exec_all [OpEntry Class "a"] initial in
  let w' := World [SimpleSelector.mk ".ab" [] true false false] (Some 0) in
  invoke Element "b" 0 w = Some (w', Throw SelectorOrderError)
  ∧ stringify 0 w' = Some (w', Return ".ab")
  ∧ (∃ w'' c, invoke Element "c" 0 w' = Some (w'', c) ∧ c ≠ Throw SelectorOrderError)
  ∧ invoke Element "c" 0 w' = Some (w', Throw DuplicateSelectorPartError)
  ∧ w' = exec_all [OpEntry Class "a"; OpInvoke 0 Element "b"] initial.
Proof.
  intros w w'.
  destruct (order_error_keeps_partial_update [OpEntry Class "a"] 0 Element "b" w')
    as [H1 _].
  destruct (H1 eq_refl) as (x & Hx & _ & _ & _ & Hs & Hn).
  injection Hx as <-.
  split; [reflexivity |]. split; [exact Hs |]. split; [exact (Hn Element "c") |].
  destruct (order_error_keeps_partial_update
              [OpEntry Class "a"; OpInvoke 0 Element "b"] 0 Element "c" w')
    as [_ H2].
  split; [reflexivity | exact (H2 eq_refl)].
Defined.

(** ** Chains the grammar allows *)

Lemma nondecreasing_cons (a : nat) (rs : list nat) :
  nondecreasing (a :: rs) = true →
  Forall (λ r, a ≤ r) rs ∧ nondecreasing rs = true.
Proof.
  revert a. induction rs as [|b rs IH]; intros a H; [by split |].
  apply andb_prop in H as [Hab H]. apply Nat.leb_le in Hab.
  split; [| done]. constructor; [done |].
  destruct (IH b H) as [F _].
  eapply Forall_impl; [exact F |]. simpl. lia.
Qed.

Lemma flag_singleton (f : fragment) (x : SimpleSelector.t) :
  flag f x = true → singleton f = true.
Proof. by destruct f. Qed.

Lemma flag_raise_other (f g : fragment) (x : SimpleSelector.t) :
  fragment_eqb f g = false → flag g (raise_flag f x) = flag g x.
Proof. by destruct f, g, x. Qed.

Lemma fragment_eqb_eq (f g : fragment) : fragment_eqb f g = true → f = g.
Proof. by destruct f, g. Qed.

Lemma chain_valid (calls : list (fragment * string)) (w : world) (this : loc)
    (x : SimpleSelector.t) :
  deref w this = Some x →
  (∀ r, marker x = Some r → Forall (λ c, r ≤ rank c.1) calls) →
  nondecreasing (map (λ c, rank c.1) calls) = true →
  (∀ g, singleton g = true →
        occurrences g calls + (if flag g x then 1 else 0) ≤ 1) →
  ∃ w' x', chain calls this w = Some (w', Return this)
    ∧ deref w' this = Some x'
    ∧ SimpleSelector.str x' = SimpleSelector.str x +:+ render calls.
Proof.
  revert w x. induction calls as [|[f v] rest IH]; intros w x Hx Hm Hn Ho.
  - exists w, x. simpl. by rewrite append_nil_r.
  - assert (flag f x = false) as Hf.
    { destruct (flag f x) eqn:E; [| done].
      specialize (Ho f (flag_singleton _ _ E)). rewrite E in Ho.
      simpl in Ho. unfold fragment_eqb in Ho. rewrite Nat.eqb_refl in Ho. lia. }
    assert (order_violated f x = false) as Hv.
    { unfold order_violated. destruct (marker x) as [r|] eqn:E; [| done].
      specialize (Hm r eq_refl). apply Forall_cons_1 in Hm as [Hr _].
      simpl in Hr. by apply Nat.ltb_ge. }
    change (nondecreasing (rank f :: map (λ c, rank c.1) rest) = true) in Hn.
    apply nondecreasing_cons in Hn as [Hall Hn].
    set (x1 := SimpleSelector.stack_push (rank f) (appended f v x)).
    destruct (IH (store this x1 w) x1) as (w' & x' & Hc & Hd & Hs).
    + by eapply deref_store_eq.
    + unfold x1. rewrite marker_stack_push. intros r [= <-].
      exact (proj1 (List.Forall_map _ _ _) Hall).
    + done.
    + intros g Hg. specialize (Ho g Hg). simpl in Ho.
      unfold x1. rewrite flag_stack_push, flag_appended.
      destruct (fragment_eqb f g) eqn:E.
      * apply fragment_eqb_eq in E as <-. rewrite flag_raised by done.
        rewrite Hf in Ho. lia.
      * by rewrite flag_raise_other.
    + exists w', x'. split; [| split; [done |]].
      * change (chain ((f, v) :: rest) this w)
          with (bind (invoke f v this) (chain rest) w).
        unfold bind. rewrite (invoke_eq _ _ _ _ _ Hx), fragment_body_eq, Hf, Hv.
        exact Hc.
      * rewrite Hs. simpl. apply append_assoc.
Qed.

Lemma entry_chain (f : fragment) (v : string) (rest : list (fragment * string))
    (w : world) :
  (r ← cssSelectorBuilder.entry f v; chain rest r) w =
  chain ((f, v) :: rest) (length (heap w))
    (World (heap w ++ [SimpleSelector.constructor]) (Some (length (heap w)))).
Proof. reflexivity. Qed.

Lemma valid_parts (calls : list (fragment * string)) :
  valid calls = true →
  nondecreasing (map (λ c, rank c.1) calls) = true
  ∧ ∀ g, singleton g = true → occurrences g calls + 0 ≤ 1.
Proof.
  unfold valid. intros H.
  apply andb_prop in H as [H H3]. apply andb_prop in H as [H H2].
  apply andb_prop in H as [H0 H1].
  apply Nat.leb_le in H1, H2, H3.
  split; [done |]. intros [] Hg; try discriminate Hg; lia.
Qed.

(** C2. A sequence of fragment calls in grammar order, with [element], [id]
    and [pseudoElement] at most once, throws nothing, and [stringify()] then
    returns the fragments in call order, each formatted after its kind:
    on a new expression, and so through the entry of the facade that makes
    the first call. *)
Theorem valid_chain_stringify (calls : list (fragment * string)) :
  valid calls = true →
  (∀ w this, deref w this = Some SimpleSelector.constructor →
     ∃ w', chain calls this w = Some (w', Return this)
       ∧ stringify this w' = Some (w', Return (render calls)))
  ∧ (∀ w f v rest, calls = (f, v) :: rest →
     ∃ w' e, (r ← cssSelectorBuilder.entry f v; chain rest r) w = Some (w', Return e)
       ∧ stringify e w' = Some (w', Return (render calls))).
Proof.
  intros [Hn Ho]%valid_parts.
  assert (∀ w this, deref w this = Some SimpleSelector.constructor →
     ∃ w', chain calls this w = Some (w', Return this)
       ∧ stringify this w' = Some (w', Return (render calls))) as H.
  { intros w this Hx.
    destruct (chain_valid calls w this _ Hx) as (w' & x' & Hc & Hd & Hs).
    { intros r Hr. discriminate Hr. }
    { done. }
    { intros g Hg. replace (flag g SimpleSelector.constructor) with false
        by (by destruct g). by apply Ho. }
    exists w'. split; [done |].
    rewrite (stringify_eq _ _ _ Hd), Hs. done. }
  split; [exact H |].
  intros w f v rest ->. rewrite entry_chain.
  destruct (H (World (heap w ++ [SimpleSelector.constructor]) (Some (length (heap w))))
              (length (heap w))) as (w' & Hw').
  { unfold deref; simpl. by apply list_lookup_middle. }
  by exists w', (length (heap w)).
Qed.

Lemma valid_chain_stringify_witness :
  ∃ w' e,
    (r ← cssSelectorBuilder.id "main";
     chain [(Class, "container"); (Class, "editable")] r) initial
    = Some (w', Return e)
    ∧ stringify e w' = Some (w', Return "#main.container.editable").
Proof.
  destruct (valid_chain_stringify
              [(Id, "main"); (Class, "container"); (Class, "editable")])
    as [_ H]; [reflexivity |].
  exact (H initial Id "main" [(Class, "container"); (Class, "editable")] eq_refl).
Defined.

(** The second end-to-end example of the source's documentation; the value
    of the attribute holds two double quotes. *)
Example attr_chain :
  let q := String (Ascii.ascii_of_nat 34) EmptyString in
  returned
    ((r ← cssSelectorBuilder.element "a";
      e ← chain [(Attr, "href$=" +:+ q +:+ ".png" +:+ q); (PseudoClass, "focus")] r;
      stringify e) initial)
  = Some ("a[href$=" +:+ q +:+ ".png" +:+ q +:+ "]:focus").
Proof. reflexivity. Qed.

(** ** Independent expressions *)

Lemma returned_stringify_deref (w : world) (this : loc) :
  returned (stringify this w) = SimpleSelector.str <$> deref w this.
Proof.
  destruct (deref w this) as [x|] eqn:H.
  - by rewrite (stringify_eq _ _ _ H).
  - unfold stringify. by rewrite (send_dangling _ _ _ H).
Qed.

(** A fragment call writes the object of its receiver, from that object
    alone, and no other. *)
Lemma exec_invoke_deref (this l : loc) (f : fragment) (v : string) (w : world) :
  deref (exec (OpInvoke this f v) w) l =
    if decide (this = l)
    then (λ x, (fragment_body f v x).1) <$> deref w this
    else deref w l.
Proof.
  unfold exec, run, mbind, M_bind, bind.
  destruct (deref w this) as [x|] eqn:H.
  - rewrite (invoke_eq _ _ _ _ _ H).
    assert (deref (store this (fragment_body f v x).1 w) l =
            if decide (this = l) then Some (fragment_body f v x).1 else deref w l) as E.
    { destruct (decide (this = l)) as [<-|Hne].
      - by eapply deref_store_eq.
      - by apply deref_store_ne. }
    by destruct (fragment_body f v x).2.
  - rewrite (invoke_dangling _ _ _ _ H).
    destruct (decide (this = l)) as [<-|Hne]; done.
Qed.

Lemma exec_calls_cons (c : loc * fragment * string)
    (cs : list (loc * fragment * string)) (w : world) :
  exec_calls (c :: cs) w = exec_calls cs (exec (OpInvoke c.1.1 c.1.2 c.2) w).
Proof. reflexivity. Qed.

(** What the calls make of the object of [l] is what the calls on [l] alone
    make of it. *)
Lemma exec_calls_own (l : loc) (cs : list (loc * fragment * string)) (w w' : world) :
  deref w l = deref w' l →
  deref (exec_calls cs w) l =
  deref (exec_calls (filter (λ c, c.1.1 = l) cs) w') l.
Proof.
  revert w w'. induction cs as [|[[l0 f] v] cs IH]; intros w w' H; [done |].
  rewrite exec_calls_cons, filter_cons. simpl.
  destruct (decide (l0 = l)) as [->|Hne].
  - rewrite exec_calls_cons. simpl. apply IH.
    by rewrite !exec_invoke_deref, H.
  - apply IH. rewrite exec_invoke_deref.
    by destruct (decide (l0 = l)).
Qed.

Lemma exec_calls_other (l : loc) (cs : list (loc * fragment * string)) (w : world) :
  Forall (λ c, c.1.1 ≠ l) cs →
  deref (exec_calls cs w) l = deref w l.
Proof.
  intros F. rewrite (exec_calls_own l cs w w eq_refl).
  replace (filter (λ c, c.1.1 = l) cs) with (@nil (loc * fragment * string)); [done |].
  symmetry. induction F as [|c cs Hc F IH]; [done |].
  by rewrite filter_cons, decide_False.
Qed.

(** C7. Each entry of the facade returns a new expression, which no earlier
    reference stands for: two expressions from two entry calls, whatever the
    program did in between, are two objects, and in any interleaving of
    fragment calls the text of each is what its own calls alone make of it;
    calls on the one leave the [stringify()] of the other as it was. *)
Theorem entries_independent (w : world) (f1 f2 : fragment) (v1 v2 : string)
    (between : list op) :
  ∃ (e1 e2 : loc) (w1 w2 : world),
    cssSelectorBuilder.entry f1 v1 w = Some (w1, Return e1)
    ∧ deref w e1 = None
    ∧ cssSelectorBuilder.entry f2 v2 (exec_all between w1) = Some (w2, Return e2)
    ∧ deref (exec_all between w1) e2 = None
    ∧ e1 ≠ e2
    ∧ ∀ cs : list (loc * fragment * string),
        returned (stringify e1 (exec_calls cs w2))
        = returned (stringify e1 (exec_calls (filter (λ c, c.1.1 = e1) cs) w2))
        ∧ returned (stringify e2 (exec_calls cs w2))
          = returned (stringify e2 (exec_calls (filter (λ c, c.1.1 = e2) cs) w2))
        ∧ (Forall (λ c, c.1.1 = e1) cs →
           returned (stringify e2 (exec_calls cs w2)) = returned (stringify e2 w2))
        ∧ (Forall (λ c, c.1.1 = e2) cs →
           returned (stringify e1 (exec_calls cs w2)) = returned (stringify e1 w2)).
Proof.
  eexists _, _, _, _.
  split; [apply entry_eq |]. split; [by apply lookup_ge_None_2 |].
  split; [apply entry_eq |]. split; [by apply lookup_ge_None_2 |].
  match goal with |- ?a ≠ ?b ∧ _ => assert (a < b) as Hlt end.
  { destruct (exec_all_deref between
                (World (heap w ++ [(fragment_body f1 v1 SimpleSelector.constructor).1])
                       (Some (length (heap w))))
                (length (heap w)) (fragment_body f1 v1 SimpleSelector.constructor).1)
      as (x & Hx & _).
    - unfold deref; simpl. by apply list_lookup_middle.
    - by eapply lookup_lt_Some. }
  split; [lia |]. intros cs.
  rewrite !returned_stringify_deref.
  split; [by erewrite exec_calls_own |].
  split; [by erewrite exec_calls_own |].
  split; intros F; rewrite exec_calls_other; try done;
    eapply Forall_impl; try exact F; simpl; intros c ->; lia.
Qed.

(** Two chains built in turns: [a = element(div)], [b = element(p)],
    [a.id(x)], [b.class(y)], [a.class(z)]. *)
Example interleaved_chains :
  let w := exec_all [OpEntry Element "div"; OpEntry Element "p";
                     OpInvoke 0 Id "x"; OpInvoke 1 Class "y";
                     OpInvoke 0 Class "z"] initial in
  returned (stringify 0 w) = Some "div#x.z"
  ∧ returned (stringify 1 w) = Some "p.y".
Proof. split; reflexivity. Qed.

Lemma entries_independent_witness :
  ∃ (e1 e2 : loc) (w1 w2 : world),
    cssSelectorBuilder.entry Element "div" initial = Some (w1, Return e1)
    ∧ cssSelectorBuilder.entry Element "p" (exec_all [] w1) = Some (w2, Return e2)
    ∧ e1 ≠ e2
    ∧ returned (stringify e2 (exec_calls [(e1, Id, "x"); (e1, Class, "z")] w2))
      = returned (stringify e2 w2).
Proof.
  destruct (entries_independent initial Element Element "div" "p" [])
    as (e1 & e2 & w1 & w2 & H1 & _ & H2 & _ & Hne & H).
  exists e1, e2, w1, w2.
  split; [exact H1 |]. split; [exact H2 |]. split; [exact Hne |].
  destruct (H [(e1, Id, "x"); (e1, Class, "z")]) as (_ & _ & H3 & _).
  apply H3. repeat constructor.
Defined.

(** * Further properties of the builder *)

(** ** The rule of the six fragment methods *)

(** X1. The six fragment methods are one rule over the table of ranks,
    formats and flags: a call on an expression whose flag for the part is set
    throws the duplicate error and changes nothing; otherwise the text is
    appended, the flag raised and the stack popped, and the call throws the
    ordering error when the popped rank is above its own, or else pushes its
    rank and returns the receiver. No other completion exists. *)
Theorem fragment_call_rule (w : world) (this : loc) (f : fragment) (v : string)
    (x : SimpleSelector.t) :
  deref w this = Some x →
  invoke f v this w =
    if flag f x then Some (w, Throw DuplicateSelectorPartError)
    else if order_violated f x
    then Some (store this (appended f v x) w, Throw SelectorOrderError)
    else Some (store this (SimpleSelector.stack_push (rank f) (appended f v x)) w,
               Return this).
Proof.
  intros H. rewrite (invoke_eq _ _ _ _ _ H), fragment_body_eq.
  destruct (flag f x); simpl; [by rewrite (store_same _ _ _ H) |].
  by destruct (order_violated f x).
Qed.

Lemma fragment_call_rule_witness :
  let w := exec_all [OpEntry Id "main"] initial in
  invoke Class "c" 0 w
  = Some (World [SimpleSelector.mk "#main.c" [2] false true false] (Some 0), Return 0)
  ∧ invoke Element "div" 0 w
    = Some (World [SimpleSelector.mk "#maindiv" [] true true false] (Some 0),
            Throw SelectorOrderError)
  ∧ invoke Id "other" 0 w = Some (w, Throw DuplicateSelectorPartError).
Proof.
  intros w.
  pose (x := SimpleSelector.mk "#main" [1] false true false).
  split; [| split].
  - exact (fragment_call_rule w 0 Class "c" x eq_refl).
  - exact (fragment_call_rule w 0 Element "div" x eq_refl).
  - exact (fragment_call_rule w 0 Id "other" x eq_refl).
Defined.

Lemma completion_ignores_text (f : fragment) (v v' s : string) (x : SimpleSelector.t) :
  (fragment_body f v (SimpleSelector.set_str s x)).2 = (fragment_body f v' x).2.
Proof.
  rewrite !fragment_body_eq.
  replace (flag f (SimpleSelector.set_str s x)) with (flag f x) by (by destruct f).
  replace (order_violated f (SimpleSelector.set_str s x)) with (order_violated f x)
    by done.
  destruct (flag f x); [done |]. by destruct (order_violated f x).
Qed.

(** X2. Whether a fragment call returns, and which error it throws if not,
    depends on the flags and on the stack of the expression only, not on its
    text nor on the value passed; and [combine] writes the text only. So a
    combined expression accepts the fragment calls its left operand accepted
    before the combination, and throws the same errors on the others. *)
Theorem combine_keeps_grammar_state (w w' : world) (a b : loc) (c : string)
    (f : fragment) (v v' : string) :
  combine c b a w = Some (w', Return a) →
  completion_of (invoke f v a w') = completion_of (invoke f v' a w).
Proof.
  intros Hc.
  destruct (deref w b) as [y|] eqn:Hy;
    [| rewrite combine_dangling in Hc; [done | by right]].
  destruct (deref w a) as [x|] eqn:Hx;
    [| rewrite combine_dangling in Hc; [done | by left]].
  rewrite (combine_eq _ _ _ _ _ _ Hx Hy) in Hc. injection Hc as <-.
  erewrite (invoke_eq f v); [| by eapply deref_store_eq].
  rewrite (invoke_eq _ _ _ _ _ Hx). simpl.
  by rewrite (completion_ignores_text f v v').
Qed.

Lemma combine_keeps_grammar_state_witness :
  let w := exec_all [OpEntry Element "div"; OpInvoke 0 Class "c";
                     OpEntry Element "p"] initial in
  ∃ w', combine ">" 1 0 w = Some (w', Return 0)
    ∧ completion_of (invoke Id "i" 0 w') = Some (Throw SelectorOrderError)
    ∧ completion_of (invoke Element "e" 0 w') = Some (Throw DuplicateSelectorPartError)
    ∧ completion_of (invoke Attr "a" 0 w') = Some (Return 0).
Proof.
  intros w.
  destruct (combine ">" 1 0 w) as [[w' r]|] eqn:E; [| discriminate E].
  assert (r = Return 0) as -> by (by injection E as _ <-).
  exists w'. split; [reflexivity |].
  split; [| split].
  - by rewrite (combine_keeps_grammar_state w w' 0 1 ">" Id "i" "i" E).
  - by rewrite (combine_keeps_grammar_state w w' 0 1 ">" Element "e" "e" E).
  - by rewrite (combine_keeps_grammar_state w w' 0 1 ">" Attr "a" "a" E).
Defined.

(** ** What every statement keeps *)

Lemma extends_refl (s : string) : extends s s.
Proof. exists EmptyString. by rewrite append_nil_r. Qed.

Lemma extends_trans (s t u : string) : extends s t → extends t u → extends s u.
Proof. intros [a ->] [b ->]. exists (a +:+ b). apply append_assoc. Qed.

Lemma object_step_extends (x x' : SimpleSelector.t) :
  object_step x x' → extends (SimpleSelector.str x) (SimpleSelector.str x').
Proof.
  intros [f v | c s].
  - rewrite fragment_body_eq.
    destruct (flag f x); [apply extends_refl |].
    destruct (order_violated f x); by exists (format f v).
  - by exists (" " +:+ c +:+ " " +:+ s).
Qed.

Lemma rtc_object_step_extends (x x' : SimpleSelector.t) :
  rtc object_step x x' → extends (SimpleSelector.str x) (SimpleSelector.str x').
Proof.
  induction 1 as [|x y z S _ IH]; [apply extends_refl |].
  eapply extends_trans; [by apply object_step_extends | done].
Qed.

(** X3. The text of an expression only grows: whatever statements run,
    those that throw included, every reference stays valid and what
    [stringify()] returned before is the beginning of what it returns
    after. No call removes or rewrites text already emitted. *)
Theorem text_only_grows (os : list op) (w : world) (this : loc) (s : string) :
  returned (stringify this w) = Some s →
  ∃ s', returned (stringify this (exec_all os w)) = Some s' ∧ extends s s'.
Proof.
  intros (x & Hx & <-)%returned_stringify.
  destruct (exec_all_deref os w this x Hx) as (x' & Hx' & S).
  exists (SimpleSelector.str x'). split.
  - apply returned_stringify. by exists x'.
  - by apply rtc_object_step_extends.
Qed.

Lemma text_only_grows_witness :
  let w := exec_all [OpEntry Class "a"] initial in
  returned (stringify 0 w) = Some ".a"
  ∧ ∃ s', returned (stringify 0
            (exec_all [OpInvoke 0 Element "b"; OpEntry Id "i";
                       OpCombine 0 "~" 1; OpInvoke 0 Element "c"] w)) = Some s'
          ∧ extends ".a" s'.
Proof.
  intros w. split; [reflexivity |].
  apply (text_only_grows _ w 0 ".a"). reflexivity.
Defined.

Lemma object_step_one_rank (x x' : SimpleSelector.t) :
  object_step x x' → one_rank x → one_rank x'.
Proof.
  intros [f v | c s] H; [| done].
  rewrite fragment_body_eq.
  destruct (flag f x); [done |].
  assert (removelast (SimpleSelector.stack x) = []) as E.
  { destruct H as [-> | (r & -> & _)]; done. }
  destruct (order_violated f x); simpl.
  - left. simpl. exact E.
  - right. exists (rank f). simpl. rewrite E. split; [done |].
    destruct f; simpl; lia.
Qed.

(** X4. The stack is a single cell: in every store a program reaches from
    the start through the facade and the methods, the stack of every
    expression is empty or holds exactly one rank, between 0 and 5. *)
Theorem stack_holds_one_rank (os : list op) (this : loc) (x : SimpleSelector.t) :
  deref (exec_all os initial) this = Some x → one_rank x.
Proof.
  intros H.
  eapply (Forall_lookup_1 one_rank (heap (exec_all os initial))); [| exact H].
  apply exec_all_Forall.
  - by left.
  - apply object_step_one_rank.
  - constructor.
Qed.

Lemma stack_holds_one_rank_witness :
  one_rank (SimpleSelector.mk "a.b.c:d" [4] true false false)
  ∧ one_rank (SimpleSelector.mk ".ab" [] true false false).
Proof.
  split.
  - apply (stack_holds_one_rank
             [OpEntry Element "a"; OpInvoke 0 Class "b"; OpInvoke 0 Class "c";
              OpInvoke 0 PseudoClass "d"] 0).
    reflexivity.
  - apply (stack_holds_one_rank [OpEntry Class "a"; OpInvoke 0 Element "b"] 0).
    reflexivity.
Defined.

(** ** The chains the builder accepts *)

Lemma render_app (a b : list (fragment * string)) :
  render (a ++ b) = render a +:+ render b.
Proof.
  induction a as [|[f v] a IH]; [done |].
  simpl. rewrite IH. symmetry. apply append_assoc.
Qed.

Lemma occurrences_app (g : fragment) (a b : list (fragment * string)) :
  occurrences g (a ++ b) = occurrences g a + occurrences g b.
Proof. induction a as [|c a IH]; simpl; [done | rewrite IH; lia]. Qed.

Lemma nondecreasing_snoc (rs : list nat) (a : nat) :
  nondecreasing (rs ++ [a]) = true ↔
  nondecreasing rs = true ∧ ∀ b, last rs = Some b → b ≤ a.
Proof.
  induction rs as [|b [|b' rs] IH].
  - split; [by split | done].
  - simpl. rewrite andb_true_r, Nat.leb_le. split.
    + intros H. split; [done |]. by intros ? [= <-].
    + intros [_ H]. by apply H.
  - change (nondecreasing ((b :: b' :: rs) ++ [a]))
      with (Nat.leb b b' && nondecreasing ((b' :: rs) ++ [a])).
    change (nondecreasing (b :: b' :: rs))
      with (Nat.leb b b' && nondecreasing (b' :: rs)).
    change (last (b :: b' :: rs)) with (last (b' :: rs)).
    rewrite !andb_true_iff, IH. tauto.
Qed.

Lemma last_map_rank (calls : list (fragment * string)) :
  last (map (λ c, rank c.1) calls) = (λ c, rank c.1) <$> last calls.
Proof.
  induction calls as [|c [|c' calls] IH]; [done | done |].
  exact IH.
Qed.

Lemma valid_snoc (pre : list (fragment * string)) (f : fragment) (v : string) :
  valid (pre ++ [(f, v)]) = true ↔ valid pre = true ∧ allowed_next pre f.
Proof.
  unfold valid, allowed_next.
  rewrite map_app, !occurrences_app, !andb_true_iff, !Nat.leb_le. simpl map.
  rewrite nondecreasing_snoc, last_map_rank.
  assert ((∀ b, (λ c : fragment * string, rank c.1) <$> last pre = Some b → b ≤ rank f)
          ↔ (∀ d, last pre = Some d → rank d.1 ≤ rank f)) as ->.
  { destruct (last pre) as [d|]; simpl.
    - split; [intros H ? [= <-]; by apply H | intros H ? [= <-]; by apply H].
    - split; intros _ ? [=]. }
  destruct f; simpl; unfold fragment_eqb; simpl;
    split; intros; destruct_and?; repeat split; try done; try lia;
    try (intros; lia).
  all: match goal with H : true = true → _ |- _ => specialize (H eq_refl); lia end.
Qed.

Lemma flag_built (f : fragment) (pre : list (fragment * string)) :
  flag f (built pre) = singleton f && occurs f pre.
Proof. by destruct f. Qed.

Lemma order_built (f : fragment) (pre : list (fragment * string)) :
  order_violated f (built pre) =
    match last pre with
    | Some d => Nat.ltb (rank f) (rank d.1)
    | None => false
    end.
Proof. unfold order_violated, marker, built; simpl. by destruct (last pre). Qed.

Lemma allowed_next_built (f : fragment) (pre : list (fragment * string)) :
  allowed_next pre f ↔
  flag f (built pre) = false ∧ order_violated f (built pre) = false.
Proof.
  rewrite flag_built, order_built. unfold allowed_next, occurs.
  destruct (last pre) as [d|]; destruct (singleton f); simpl;
    rewrite ?Nat.ltb_ge, ?Nat.ltb_lt; split; intros [H1 H2];
    repeat split; try done; try (by apply H1); try (intros ? [= <-]; done);
    try (intros; lia); try (specialize (H2 eq_refl); lia).
  all: try (destruct (Nat.ltb_spec 0 (occurrences f pre)); [done | lia]).
Qed.

Lemma built_snoc (f : fragment) (v : string) (pre : list (fragment * string)) :
  SimpleSelector.stack_push (rank f) (appended f v (built pre))
  = built (pre ++ [(f, v)]).
Proof.
  unfold built, occurs. rewrite last_snoc, render_app, !occurrences_app.
  simpl render. rewrite append_nil_r.
  unfold SimpleSelector.stack_push, appended; simpl.
  assert (removelast match last pre with Some c => [rank c.1] | None => [] end
          = []) as -> by (by destruct (last pre)).
  destruct f; simpl; unfold fragment_eqb; simpl; rewrite ?Nat.add_0_r;
    unfold SimpleSelector.set_stack, SimpleSelector.set_str; simpl;
    f_equal; symmetry; apply Nat.ltb_lt; lia.
Qed.

Lemma store_store (l : loc) (x y : SimpleSelector.t) (w : world) :
  store l y (store l x w) = store l y w.
Proof. unfold store, set_heap; simpl. by rewrite list_insert_insert_eq. Qed.

Lemma chain_app (a b : list (fragment * string)) (this : loc) (w : world) :
  chain (a ++ b) this w = (r ← chain a this; chain b r) w.
Proof.
  revert this w. induction a as [|[f v] a IH]; intros this w; [done |].
  change (chain (((f, v) :: a) ++ b) this w)
    with (bind (invoke f v this) (chain (a ++ b)) w).
  unfold mbind, M_bind.
  change (chain ((f, v) :: a) this) with (bind (invoke f v this) (chain a)).
  unfold bind. destruct (invoke f v this w) as [[w1 [r|e]]|]; [| done | done].
  apply IH.
Qed.

Lemma chain_built (calls : list (fragment * string)) (w : world) (this : loc) :
  valid calls = true →
  deref w this = Some SimpleSelector.constructor →
  chain calls this w = Some (store this (built calls) w, Return this).
Proof.
  intros Hv Hx. induction calls as [|[f v] pre IH] using rev_ind.
  - simpl. unfold ret. by rewrite (store_same w this (built []) Hx).
  - apply valid_snoc in Hv as [Hv [Hf Ho]%allowed_next_built].
    rewrite chain_app. unfold mbind, M_bind, bind. rewrite (IH Hv).
    change (chain [(f, v)] this) with (bind (invoke f v this) (chain [])).
    unfold bind.
    erewrite invoke_eq; [| by eapply deref_store_eq].
    rewrite fragment_body_eq, Hf, Ho. simpl.
    by rewrite store_store, built_snoc.
Qed.



(** X5. A chain the grammar allows builds, from a new expression, exactly
    this object: the fragments in call order as text, the rank of the last
    call as the only entry of the stack, and the flags of the singleton parts
    that were called; nothing else of the store changes. *)
Theorem valid_chain_builds (calls : list (fragment * string)) (w : world)
    (this : loc) :
  valid calls = true →
  deref w this = Some SimpleSelector.constructor →
  chain calls this w = Some (store this (built calls) w, Return this)
  ∧ ∀ l, l ≠ this → deref (store this (built calls) w) l = deref w l.
Proof.
  intros Hv Hx. split; [by apply chain_built |].
  intros l Hl. apply deref_store_ne. congruence.
Qed.

Lemma valid_chain_builds_witness :
  let w := World [SimpleSelector.constructor] (Some 0) in
  chain [(Element, "a"); (Class, "b"); (Class, "c"); (PseudoElement, "d")] 0 w
  = Some (World [SimpleSelector.mk "a.b.c::d" [5] true false true] (Some 0),
          Return 0).
Proof.
  intros w.
  destruct (valid_chain_builds
              [(Element, "a"); (Class, "b"); (Class, "c"); (PseudoElement, "d")] w 0)
    as [H _]; [reflexivity | reflexivity |].
  exact H.
Defined.




(** X7. A chain stops at the first call the grammar forbids and runs none of
    the calls after it. When that call is a singleton part called again, the
    duplicate error is thrown and the expression is what the calls before it
    built; otherwise the ordering error is thrown and the text of the
    rejected fragment is appended to what they built, its flag raised and
    the stack left empty. *)
Theorem chain_first_rejected (pre post : list (fragment * string)) (f : fragment)
    (v : string) (w : world) (this : loc) :
  valid pre = true →
  valid (pre ++ [(f, v)]) = false →
  deref w this = Some SimpleSelector.constructor →
  chain (pre ++ (f, v) :: post) this w =
    if singleton f && occurs f pre
    then Some (store this (built pre) w, Throw DuplicateSelectorPartError)
    else Some (store this (appended f v (built pre)) w, Throw SelectorOrderError).
Proof.
  intros Hv Hn Hx.
  rewrite chain_app. unfold mbind, M_bind, bind. rewrite (chain_built pre w this Hv Hx).
  change (chain ((f, v) :: post) this) with (bind (invoke f v this) (chain post)).
  unfold bind.
  erewrite invoke_eq; [| by eapply deref_store_eq].
  rewrite fragment_body_eq, flag_built.
  destruct (singleton f && occurs f pre) eqn:Hf; simpl.
  - by rewrite store_store.
  - destruct (order_violated f (built pre)) eqn:Ho; simpl.
    + by rewrite store_store.
    + exfalso. apply not_true_iff_false in Hn. apply Hn.
      apply valid_snoc. split; [done |].
      apply allowed_next_built. by rewrite flag_built.
Qed.

Lemma chain_first_rejected_witness :
  let w := World [SimpleSelector.constructor] (Some 0) in
  chain [(Element, "a"); (Class, "b"); (Element, "c"); (Class, "d")] 0 w
  = Some (World [SimpleSelector.mk "a.b" [2] true false false] (Some 0),
          Throw DuplicateSelectorPartError)
  ∧ chain [(Element, "a"); (Class, "b"); (Id, "c"); (Class, "d")] 0 w
    = Some (World [SimpleSelector.mk "a.b#c" [] true true false] (Some 0),
            Throw SelectorOrderError).
Proof.
  intros w. split.
  - apply (chain_first_rejected [(Element, "a"); (Class, "b")] [(Class, "d")]
             Element "c" w 0); reflexivity.
  - apply (chain_first_rejected [(Element, "a"); (Class, "b")] [(Class, "d")]
             Id "c" w 0); reflexivity.
Defined.

(** ** The facade *)

Lemma built_single (f : fragment) (v : string) :
  (fragment_body f v SimpleSelector.constructor).1 = built [(f, v)].
Proof.
  rewrite fragment_body_eq.
  replace (flag f SimpleSelector.constructor) with false by (by destruct f).
  exact (built_snoc f v []).
Qed.

(** X8. An entry of the facade never throws. It returns a reference that
    stood for no object before, to a new expression holding the one
    formatted fragment, its rank and its flag; every expression that existed
    is left as it was, and [result] refers to the new one. *)
Theorem entry_new_expression (f : fragment) (v : string) (w : world) :
  ∃ w' e,
    cssSelectorBuilder.entry f v w = Some (w', Return e)
    ∧ deref w e = None
    ∧ deref w' e = Some (built [(f, v)])
    ∧ returned (stringify e w') = Some (format f v)
    ∧ (∀ l x, deref w l = Some x → deref w' l = Some x)
    ∧ result w' = Some e.
Proof.
  eexists _, _. split; [apply entry_eq |].
  split; [by apply lookup_ge_None_2 |].
  assert (deref (World (heap w ++ [(fragment_body f v SimpleSelector.constructor).1])
                       (Some (length (heap w)))) (length (heap w))
          = Some (built [(f, v)])) as Hd.
  { unfold deref; simpl. rewrite built_single. by apply list_lookup_middle. }
  split; [exact Hd |]. split.
  - rewrite (stringify_eq _ _ _ Hd). simpl. by rewrite append_nil_r.
  - split; [| done]. intros l x H. unfold deref in *; simpl.
    by apply lookup_app_l_Some.
Qed.

(** X9. [result] of the facade is written by the facade alone: [combine]
    through the facade never throws and sets it to its first operand, which
    it returns, and no method called on an expression, returning or
    throwing, changes it. *)
Theorem result_follows_facade (w w' : world) :
  (∀ a c b e, cssSelectorBuilder.combine a c b w = Some (w', Return e) →
     e = a ∧ result w' = Some a)
  ∧ (∀ a c b e, cssSelectorBuilder.combine a c b w ≠ Some (w', Throw e))
  ∧ (∀ this f v r, invoke f v this w = Some (w', r) → result w' = result w)
  ∧ (∀ this c b r, combine c b this w = Some (w', r) → result w' = result w)
  ∧ (∀ this r, stringify this w = Some (w', r) → result w' = result w).
Proof.
  repeat split.
  - destruct (deref w a) as [x|] eqn:Ha, (deref w b) as [y|] eqn:Hb;
      [rewrite (facade_combine_eq _ _ _ _ _ _ Ha Hb) in H; congruence | | |];
      unfold cssSelectorBuilder.combine, mbind, M_bind, bind in H;
      rewrite combine_dangling in H; try done; auto.
  - destruct (deref w a) as [x|] eqn:Ha, (deref w b) as [y|] eqn:Hb;
      [rewrite (facade_combine_eq _ _ _ _ _ _ Ha Hb) in H; by injection H as <- | | |];
      unfold cssSelectorBuilder.combine, mbind, M_bind, bind in H;
      rewrite combine_dangling in H; try done; auto.
  - intros a c b e.
    destruct (deref w a) as [x|] eqn:Ha, (deref w b) as [y|] eqn:Hb;
      [rewrite (facade_combine_eq _ _ _ _ _ _ Ha Hb); congruence | | |];
      unfold cssSelectorBuilder.combine, mbind, M_bind, bind;
      rewrite combine_dangling; try done; auto.
  - intros this f v r.
    destruct (deref w this) as [x|] eqn:H.
    + rewrite (invoke_eq _ _ _ _ _ H). by intros [= <- _].
    + by rewrite (invoke_dangling _ _ _ _ H).
  - intros this c b r.
    destruct (deref w this) as [x|] eqn:Ha, (deref w b) as [y|] eqn:Hb;
      [rewrite (combine_eq _ _ _ _ _ _ Ha Hb); by intros [= <- _] | | |];
      rewrite combine_dangling; try done; auto.
  - intros this r.
    destruct (deref w this) as [x|] eqn:H.
    + rewrite (stringify_eq _ _ _ H). by intros [= <- _].
    + unfold stringify. by rewrite (send_dangling _ _ _ H).
Qed.

Lemma result_follows_facade_witness :
  let w := exec_all [OpEntry Element "a"; OpEntry Element "b"] initial in
  result w = Some 1
  ∧ ∃ w' w'', cssSelectorBuilder.combine 0 "+" 1 w = Some (w', Return 0)
      ∧ result w' = Some 0
      ∧ invoke Element "c" 1 w' = Some (w'', Throw DuplicateSelectorPartError)
      ∧ result w'' = Some 0.
Proof.
  intros w. split; [reflexivity |].
  destruct (cssSelectorBuilder.combine 0 "+" 1 w) as [[w' r]|] eqn:E;
    [| discriminate E].
  assert (r = Return 0) as -> by (by injection E as _ <-).
  destruct (invoke Element "c" 1 w') as [[w'' r]|] eqn:E2;
    [| exfalso; injection E as <-; discriminate E2].
  assert (r = Throw DuplicateSelectorPartError) as ->
    by (injection E as <-; by injection E2 as _ <-).
  exists w', w''. split; [reflexivity |].
  destruct (result_follows_facade w w') as (H1 & _).
  destruct (H1 0 "+" 1 0 E) as [_ Hr].
  destruct (result_follows_facade w' w'') as (_ & _ & H3 & _).
  split; [exact Hr |]. split; [exact E2 |].
  rewrite (H3 1 Element "c" _ E2). exact Hr.
Defined.

(** ** Nested combinations *)

Lemma deref_World_insert_eq (h : list SimpleSelector.t) (r : option loc)
    (l : loc) (x x' : SimpleSelector.t) :
  h !! l = Some x → deref (World (<[l := x']> h) r) l = Some x'.
Proof.
  intros H. unfold deref; simpl. apply list_lookup_insert_eq.
  by eapply lookup_lt_Some.
Qed.

Lemma deref_World_insert_ne (h : list SimpleSelector.t) (r : option loc)
    (l l' : loc) (x' : SimpleSelector.t) :
  l ≠ l' → deref (World (<[l := x']> h) r) l' = h !! l'.
Proof. intros H. unfold deref; simpl. by apply list_lookup_insert_ne. Qed.

(** X10. Combination is associative on the text: for an expression [a]
    that is neither [b] nor [d], combining [a] with the combination of [b]
    and [d], and combining the combination of [a] and [b] with [d], both
    give the three texts in order with the two combinators between them,
    each between two spaces. *)
Theorem combine_associative (w : world) (a b d : loc) (c1 c2 sa sb sd : string) :
  a ≠ b → a ≠ d →
  returned (stringify a w) = Some sa →
  returned (stringify b w) = Some sb →
  returned (stringify d w) = Some sd →
  returned ((bd ← cssSelectorBuilder.combine b c2 d;
             e ← cssSelectorBuilder.combine a c1 bd;
             stringify e) w)
  = Some (sa +:+ " " +:+ c1 +:+ " " +:+ sb +:+ " " +:+ c2 +:+ " " +:+ sd)
  ∧ returned ((ab ← cssSelectorBuilder.combine a c1 b;
               e ← cssSelectorBuilder.combine ab c2 d;
               stringify e) w)
    = Some (sa +:+ " " +:+ c1 +:+ " " +:+ sb +:+ " " +:+ c2 +:+ " " +:+ sd).
Proof.
  intros Hab Had (x & Hx & <-)%returned_stringify (y & Hy & <-)%returned_stringify
    (z & Hz & <-)%returned_stringify.
  unfold mbind, M_bind. split.
  - unfold bind at 1. rewrite (facade_combine_eq _ _ _ _ _ _ Hy Hz).
    unfold bind.
    erewrite facade_combine_eq;
      [| rewrite deref_World_insert_ne; [exact Hx | congruence]
       | by eapply deref_World_insert_eq ].
    erewrite stringify_eq; [| eapply deref_World_insert_eq].
    + done.
    + simpl. rewrite list_lookup_insert_ne; [exact Hx | congruence].
  - unfold bind at 1. rewrite (facade_combine_eq _ _ _ _ _ _ Hx Hy).
    unfold bind.
    erewrite facade_combine_eq;
      [| by eapply deref_World_insert_eq
       | rewrite deref_World_insert_ne; [exact Hz | congruence] ].
    erewrite stringify_eq; [| eapply deref_World_insert_eq].
    + simpl. by rewrite !append_assoc.
    + simpl. eapply list_lookup_insert_eq. by eapply lookup_lt_Some.
Qed.

Lemma combine_associative_witness :
  let w := exec_all [OpEntry Element "a"; OpEntry Element "b"; OpEntry Element "d"]
             initial in
  returned ((bd ← cssSelectorBuilder.combine 1 "~" 2;
             e ← cssSelectorBuilder.combine 0 "+" bd;
             stringify e) w) = Some "a + b ~ d"
  ∧ returned ((ab ← cssSelectorBuilder.combine 0 "+" 1;
               e ← cssSelectorBuilder.combine ab "~" 2;
               stringify e) w) = Some "a + b ~ d".
Proof.
  intros w.
  apply (combine_associative w 0 1 2 "+" "~" "a" "b" "d");
    try discriminate; reflexivity.
Defined.

(** ** [Rectangle] *)

